(** * FastStream: the Kafka router's publisher registry and the Redis consume contract

    A shallow embedding of [faststream/kafka/router.py] (class [KafkaRouter]) and
    of the scenarios of [tests/brokers/redis/test_consume.py].

    Python objects are mutable and handed around by reference:
    [_update_publisher_prefix] assigns to [publisher.topic] in place and
    [publisher()] returns a reference that may alias an entry of
    [self._publishers].  The embedding therefore keeps an explicit object store
    (addresses to [Publisher] values) and a registry from keys to addresses, and
    threads both through a small state-and-failure monad. *)

From Stdlib Require Import ZArith Strings.Byte DecimalString DecimalZ DecimalPos.
From stdpp Require Import gmap strings list fin_maps.

Open Scope string_scope.

(* ===================================================================== *)
(** ** Part I.  Definitions                                              *)
(* ===================================================================== *)

Module Kafka.

(** Addresses of [Publisher] instances in the object store. *)
Definition loc := positive.

(** Python [bytes]. *)
Definition bytes := list byte.

Section Model.

(** The type behind [schema: Optional[Any]]; the router never inspects it. *)
Variable Any : Type.

(** [faststream.kafka.asyncapi.Publisher], as far as [router.py] uses it: the
    keyword arguments of the constructor call in [publisher()], stored as
    attributes.  [topic] is read and assigned by the router. *)
Record Publisher := mkPublisher {
  topic : string;
  key : option bytes;
  partition : option Z;
  timestamp_ms : option Z;
  headers : option (gmap string string);
  reply_to : string;
  title : option string;
  batch : bool;
  _description : option string;
  _schema : option Any;
  include_in_schema : bool
}.

(** The assignment [publisher.topic = t]. *)
Definition set_topic (t : string) (p : Publisher) : Publisher :=
  mkPublisher t (key p) (partition p) (timestamp_ms p) (headers p) (reply_to p)
    (title p) (batch p) (_description p) (_schema p) (include_in_schema p).

(** The attributes of [self] that [KafkaRouter] reads and writes.  The router's
    own [include_in_schema] is [Optional[bool]]; it is named
    [router_include_in_schema] here because the [Publisher] field of the same
    name already owns the projection. *)
Record KafkaRouter := mkRouter {
  prefix : string;
  router_include_in_schema : option bool;
  _publishers : gmap string loc
}.

Definition set_publishers (m : gmap string loc) (r : KafkaRouter) : KafkaRouter :=
  mkRouter (prefix r) (router_include_in_schema r) m.

(** The interpreter state: the store of [Publisher] objects and the router. *)
Record State := mkState {
  heap : gmap loc Publisher;
  self : KafkaRouter
}.

(** Computations over the state that may fail (an attribute access through a
    reference to no object). *)
Definition M (A : Type) : Type := State → option (A * State).

Definition ret {A} (a : A) : M A := λ s, Some (a, s).

Definition bind {A B} (m : M A) (f : A → M B) : M B :=
  λ s, match m s with
       | Some (a, s') => f a s'
       | None => None
       end.

(** [Publisher(...)]: a new object at an address not yet in use. *)
Definition new (p : Publisher) : M loc :=
  λ s, let l := fresh (dom (heap s)) in
       Some (l, mkState (<[l := p]> (heap s)) (self s)).

(** Reading the object behind a reference. *)
Definition load (l : loc) : M Publisher :=
  λ s, match heap s !! l with
       | Some p => Some (p, s)
       | None => None
       end.

(** Assigning to the object behind a reference. *)
Definition store (l : loc) (p : Publisher) : M unit :=
  λ s, match heap s !! l with
       | Some _ => Some (tt, mkState (<[l := p]> (heap s)) (self s))
       | None => None
       end.

(** The keyword arguments of one [publisher()] call.  The defaults of the
    signature are [default_call]. *)
Record Call := mkCall {
  arg_topic : string;
  arg_key : option bytes;
  arg_partition : option Z;
  arg_timestamp_ms : option Z;
  arg_headers : option (gmap string string);
  arg_reply_to : string;
  arg_batch : bool;
  arg_title : option string;
  arg_description : option string;
  arg_schema : option Any;
  arg_include_in_schema : bool
}.

Definition default_call (topic : string) : Call :=
  mkCall topic None None None None "" false None None None true.

Definition get_self : M KafkaRouter := λ s, Some (self s, s).

Definition put_publishers (m : gmap string loc) : M unit :=
  λ s, Some (tt, mkState (heap s) (set_publishers m (self s))).

End Model.

Arguments mkPublisher {Any}.
Arguments topic {Any}.
Arguments key {Any}.
Arguments partition {Any}.
Arguments timestamp_ms {Any}.
Arguments headers {Any}.
Arguments reply_to {Any}.
Arguments title {Any}.
Arguments batch {Any}.
Arguments _description {Any}.
Arguments _schema {Any}.
Arguments include_in_schema {Any}.
Arguments set_topic {Any}.
Arguments mkState {Any}.
Arguments heap {Any}.
Arguments self {Any}.
Arguments ret {Any A}.
Arguments bind {Any A B}.
Arguments new {Any}.
Arguments load {Any}.
Arguments store {Any}.
Arguments get_self {Any}.
Arguments put_publishers {Any}.
Arguments mkCall {Any}.
Arguments arg_topic {Any}.
Arguments arg_key {Any}.
Arguments arg_partition {Any}.
Arguments arg_timestamp_ms {Any}.
Arguments arg_headers {Any}.
Arguments arg_reply_to {Any}.
Arguments arg_batch {Any}.
Arguments arg_title {Any}.
Arguments arg_description {Any}.
Arguments arg_schema {Any}.
Arguments arg_include_in_schema {Any}.
Arguments default_call {Any}.

Notation "'let*' x ':=' c1 'in' c2" := (bind c1 (λ x, c2))
  (at level 10, x name, c1 at level 100, c2 at level 200).

Section Router.

Context {Any : Type}.

(** [KafkaRouter._get_publisher_key]: [return publisher.topic]. *)
Definition _get_publisher_key (publisher : loc) : M Any string :=
  let* p := load publisher in
  ret (topic p).

(** [KafkaRouter._update_publisher_prefix]:
    [publisher.topic = prefix + publisher.topic; return publisher]. *)
Definition _update_publisher_prefix (prefix : string) (publisher : loc) : M Any loc :=
  let* p := load publisher in
  let* _ := store publisher (set_topic (prefix ++ topic p) p) in
  ret publisher.

(** Lines 89-108 of [publisher()]: the candidate is built and prefixed.
    [include_in_schema] is the call's argument only when the router's own
    attribute [is None]. *)
Definition new_publisher (c : Call Any) : M Any loc :=
  let* self := get_self in
  let* fresh_publisher :=
    new (mkPublisher
           (arg_topic c) (arg_key c) (arg_partition c) (arg_timestamp_ms c)
           (arg_headers c) (arg_reply_to c) (arg_title c) (arg_batch c)
           (arg_description c) (arg_schema c)
           (match router_include_in_schema self with
            | None => arg_include_in_schema c
            | Some b => b
            end)) in
  _update_publisher_prefix (prefix self) fresh_publisher.

(** [KafkaRouter.publisher]: lines 109-113 follow the candidate's construction.
    [self._publishers.get(publisher_key, new_publisher)] is the stored reference
    when the key is present and the candidate otherwise; the result is written
    back under the key and returned. *)
Definition publisher (c : Call Any) : M Any loc :=
  let* new_publisher := new_publisher c in
  let* publisher_key := _get_publisher_key new_publisher in
  let* self := get_self in
  let publisher := default new_publisher (_publishers self !! publisher_key) in
  let* _ := put_publishers (<[publisher_key := publisher]> (_publishers self)) in
  ret publisher.

(** A sequence of registration calls on one router, with the references they
    return, in order. *)
Fixpoint publisher_calls (cs : list (Call Any)) : M Any (list loc) :=
  match cs with
  | [] => ret []
  | c :: cs' =>
      let* l := publisher c in
      let* ls := publisher_calls cs' in
      ret (l :: ls)
  end.

(** A router as constructed: nothing registered, no object allocated. *)
Definition init (prefix : string) (include_in_schema : option bool) : State Any :=
  mkState ∅ (mkRouter prefix include_in_schema ∅).

(** The key a call resolves to on a router in state [s]. *)
Definition resolved_key (s : State Any) (c : Call Any) : string :=
  prefix (self s) ++ arg_topic c.

(** The candidate object of a call on a router in state [s], after the prefix
    has been applied to it. *)
Definition candidate (s : State Any) (c : Call Any) : Publisher Any :=
  mkPublisher
    (prefix (self s) ++ arg_topic c) (arg_key c) (arg_partition c)
    (arg_timestamp_ms c) (arg_headers c) (arg_reply_to c) (arg_title c)
    (arg_batch c) (arg_description c) (arg_schema c)
    (match router_include_in_schema (self s) with
     | None => arg_include_in_schema c
     | Some b => b
     end).

(** Every registry entry refers to a live object whose topic is the entry's
    key.  It holds of [init] and is kept by [publisher]. *)
Definition registry_consistent (s : State Any) : Prop :=
  ∀ k l, _publishers (self s) !! k = Some l →
         ∃ p, heap s !! l = Some p ∧ topic p = k.

End Router.

(** *** Concrete routers and calls *)

(** A router with prefix ["pre_"], on which ["a"] is registered first with the
    defaults and then again with other metadata. *)
Definition call_a : Call unit := default_call "a".

Definition call_a_again : Call unit :=
  mkCall "a" (Some [x6b]) (Some 3%Z) (Some 7%Z) (Some {["h" := "v"]}) "r"
    true (Some "title") (Some "text") (Some tt) false.

Definition router_pre : State unit := init "pre_" None.

(** The router after ["a"] has been registered once. *)
Definition router_with_a : State unit :=
  mkState
    {[1%positive := candidate router_pre call_a]}
    (mkRouter "pre_" None {["pre_a" := 1%positive]}).

(** Two routers with different prefixes on which different topic arguments
    give the same prefixed topic. *)
Definition call_b_a : Call unit :=
  mkCall "b_a" None (Some 1%Z) None None "" true None None None true.

Definition router_a_ : State unit := init "a_" (Some false).

Definition call_a_b_a : Call unit := default_call "a_b_a".

Definition router_empty : State unit := init "" None.

(** *** The registry as its users see it *)

Section RouterViews.

Context {Any : Type}.

(** The registry read through its references: the [Publisher] value found
    under each key of [self._publishers]. *)
Definition view (s : State Any) : gmap string (Publisher Any) :=
  omap (λ l, heap s !! l) (_publishers (self s)).

(** The first call of a sequence that resolves to key [k] on a router with
    prefix [pre]. *)
Definition first_call (pre k : string) (cs : list (Call Any)) : option (Call Any) :=
  head (filter (λ c, pre ++ arg_topic c = k) cs).

End RouterViews.

(** A call on topic ["b"], and ["a"] again with yet other arguments. *)
Definition call_b : Call unit :=
  mkCall "b" None None None None "reply" false (Some "b's title") None None false.

Definition call_a_batch : Call unit :=
  mkCall "a" None None None None "" true None None (Some tt) true.

(** A router whose own [include_in_schema] is [False]. *)
Definition router_hidden : State unit := init "pre_" (Some false).

End Kafka.


(** The Redis subscription engine.  Its implementation is not among the
    sources; [tests/brokers/redis/test_consume.py] is.  The engine is modelled
    from the specification and the test scenarios are transcribed from the
    test file and run against that model. *)
Module Redis.

Local Open Scope list_scope.

Definition bytes := list byte.

(** A value an application publishes: text (a Python [str]), [bytes] or an
    integer, the kinds the tests publish. *)
Inductive Payload :=
  | Text (s : string)
  | Bytes (b : bytes)
  | Int (z : Z).

(** A value a handler receives: a published kind of value, or the mapping of
    text fields of a stream entry ([{"message": "hello"}]). *)
Inductive Value :=
  | Scalar (p : Payload)
  | Mapping (fields : list (string * string)).

Coercion Scalar : Payload >-> Value.

(** The decimal numeral of an integer, and the integer a text is the numeral
    of, if it is one. *)
Definition int_numeral (z : Z) : string :=
  DecimalString.NilZero.string_of_int (Z.to_int z).

Definition read_int (s : string) : option Z :=
  match DecimalString.NilZero.int_of_string s with
  | Some d =>
      if decide (int_numeral (Z.of_int d) = s) then Some (Z.of_int d) else None
  | None => None
  end.

(** Modelled from the spec: the encoding the engine's own publish performs and
    records with the value, so that the encoding the engine performed is the
    one undone on delivery (section 4.2, decoding rule).  The engine's wire
    format is missing from the sources. *)
Inductive Encoding := Utf8Text | NoEncoding | DecimalInt.

(** Modelled from the spec: what the broker holds for one record.  A value put
    there through the low-level client is bare bytes, or for a stream entry a
    sequence of fields of bare bytes; a value put there by the engine's publish
    carries the engine's framing: the encoding performed and the headers of the
    publish call (section 4.2, header propagation). *)
Inductive Stored :=
  | Native (raw : bytes)
  | NativeEntry (fields : list (bytes * bytes))
  | Framed (data : bytes) (enc : Encoding) (hdrs : gmap string string).




(** Modelled from the spec: the engine's encoding of a payload. *)
Definition engine_encode (p : Payload) : bytes * Encoding :=
  match p with
  | Text s => (String.list_byte_of_string s, Utf8Text)
  | Bytes b => (b, NoEncoding)
  | Int z => (String.list_byte_of_string (int_numeral z), DecimalInt)
  end.

(** Modelled from the spec: the engine undoing an encoding it recorded.  Data
    that is not the numeral its frame announces stays bytes. *)
Definition engine_decode (data : bytes) (enc : Encoding) : Payload :=
  match enc with
  | Utf8Text => Text (String.string_of_list_byte data)
  | NoEncoding => Bytes data
  | DecimalInt =>
      match read_int (String.string_of_list_byte data) with
      | Some z => Int z
      | None => Bytes data
      end
  end.

(** Modelled from the spec: one record of an engine publish.  The
    [correlation_id] is generated once per publish call and handed to every
    record of the call; the caller's headers are carried as they are
    (section 4.2, header propagation). *)
Definition frame (headers : option (gmap string string)) (correlation_id : string)
    (p : Payload) : Stored :=
  Framed (engine_encode p).1 (engine_encode p).2
         (default ∅ headers ∪ {["correlation_id" := correlation_id]}).

(** Modelled from the spec: [publish(payload, destination, headers=None)]
    (section 6); the records it hands to the broker. *)
Definition publish (message : Payload) (headers : option (gmap string string))
    (correlation_id : string) : list Stored :=
  [frame headers correlation_id message].

(** Modelled from the spec: [publish_batch] over several payloads
    (section 6). *)
Definition publish_batch (messages : list Payload) (correlation_id : string)
    : list Stored :=
  frame None correlation_id <$> messages.

(** The fields of a stream entry as text. *)
Definition text_fields (fields : list (bytes * bytes)) : list (string * string) :=
  prod_map String.string_of_list_byte String.string_of_list_byte <$> fields.

(** Modelled from the spec: the decoding rule of section 4.2 for a record
    delivered on its own.  A framed record is decoded by the encoding the
    engine recorded; bare bytes from a channel or a list are delivered as they
    are ([test_consume_native] and [test_consume_list_native] receive
    [b"hello"]); the fields of a stream entry are delivered as a mapping of
    text ([test_consume_stream_native] receives [{"message": "hello"}]). *)
Definition decode (st : Stored) : Value :=
  match st with
  | Native raw => Bytes raw
  | NativeEntry fields => Mapping (text_fields fields)
  | Framed data enc _ => engine_decode data enc
  end.

(** Modelled from the spec: the decoding of a record that is delivered as an
    item of a batch (section 4.4).  It differs from [decode] on bare bytes,
    which arrive as the value they spell: [test_consume_list_batch_native]
    pushes [1] and ["hi"] through the low-level client and receives [1] and
    ["hi"], an integer for a decimal numeral and text otherwise. *)
Definition decode_item (st : Stored) : Value :=
  match st with
  | Native raw =>
      match read_int (String.string_of_list_byte raw) with
      | Some z => Int z
      | None => Text (String.string_of_list_byte raw)
      end
  | NativeEntry fields => Mapping (text_fields fields)
  | Framed data enc _ => engine_decode data enc
  end.

(** Modelled from the spec: the headers a record carries (section 4.2); a
    record the low-level client stored carries none. *)
Definition headers_of (st : Stored) : gmap string string :=
  match st with
  | Native _ => ∅
  | NativeEntry _ => ∅
  | Framed _ _ h => h
  end.

(** Modelled from the spec: the transport modes of section 3. *)
Inductive Mode := PUBSUB | PATTERN | LIST | STREAM.

(** Modelled from the spec: the Destination Descriptor of section 3.  The
    start id a stream+group destination asks for is [dest_last_id]; the name
    [last_id] belongs to the Subscriber.  [polling_interval] is counted in
    milliseconds. *)
Record Destination := mkDestination {
  name : string;
  mode : Mode;
  batch : bool;
  max_records : option nat;
  polling_interval : option nat;
  group : option string;
  consumer : option string;
  dest_last_id : option string
}.


(** Modelled from the spec: the descriptor behind
    [ListSub(name, batch, max_records, polling_interval)]. *)
Definition ListSub (name : string) (batch : bool) (max_records : option nat)
    (polling_interval : option nat) : Destination :=
  mkDestination name LIST batch max_records polling_interval None None None.

(** Modelled from the spec: the descriptor behind
    [StreamSub(stream, polling_interval, group, consumer, batch, last_id)]. *)
Definition StreamSub (stream : string) (polling_interval : option nat)
    (group consumer : option string) (batch : bool) (last_id : option string)
    : Destination :=
  mkDestination stream STREAM batch None polling_interval group consumer last_id.

(** Modelled from the spec: the group a destination is tracked by, which only
    a stream with a group has (section 3, invariant). *)
Definition group_of (d : Destination) : option string :=
  match mode d with
  | STREAM => group d
  | _ => None
  end.

(** Modelled from the spec: the Subscriber of section 3.  [last_id] exists only
    for stream+group mode and is ["$"] unless the destination sets it. *)
Record Subscriber := mkSubscriber {
  destination : Destination;
  last_id : option string
}.

(** Modelled from the spec: the [last_id] a Subscriber starts with
    (sections 3 and 4.2). *)
Definition initial_last_id (d : Destination) : option string :=
  match group_of d with
  | Some _ => Some (default "$" (dest_last_id d))
  | None => None
  end.

(** Modelled from the spec: the broker's Subscribers (section 3), in
    registration order, which is the order the tests read [_subscribers] in. *)
Record RedisBroker := mkBroker {
  _subscribers : list Subscriber
}.

(** Modelled from the spec: a broker on which nothing is registered. *)
Definition empty_broker : RedisBroker := mkBroker [].

(** Modelled from the spec: [subscriber(destination_spec)] (section 6)
    registers a Subscriber for the destination. *)
Definition subscriber (d : Destination) (b : RedisBroker) : RedisBroker :=
  mkBroker (_subscribers b ++ [mkSubscriber d (initial_last_id d)]).

(** Modelled from the spec: the body of a Message Envelope (section 3): one
    decoded value, or the sequence of them when batched. *)
Inductive Body :=
  | Single (v : Value)
  | Batch (vs : list Value).

(** Modelled from the spec: the Message Envelope of section 3. *)
Record Envelope := mkEnvelope {
  body : Body;
  headers : gmap string string;
  correlation_id : option string;
  batch_headers : list (gmap string string)
}.

(** [len(msg.body)] of a batched envelope. *)
Definition body_length (b : Body) : nat :=
  match b with
  | Single _ => 1
  | Batch vs => length vs
  end.

(** Modelled from the spec: an unbatched record becomes one envelope
    (section 4.2). *)
Definition envelope_of (st : Stored) : Envelope :=
  mkEnvelope (Single (decode st)) (headers_of st)
             (headers_of st !! "correlation_id") [].

(** Modelled from the spec: a flush of the Batch Accumulator (section 4.4):
    one envelope whose body is the accumulated payloads in arrival order and
    whose [batch_headers] is the parallel sequence of their headers; the
    envelope's own headers are the first item's (section 3).  Nothing is
    flushed from an empty accumulator. *)
Definition flush (acc : list Stored) : list Envelope :=
  match acc with
  | [] => []
  | first :: _ =>
      [mkEnvelope (Batch (decode_item <$> acc)) (headers_of first)
                  (headers_of first !! "correlation_id") (headers_of <$> acc)]
  end.

(** Modelled from the spec: what one iteration of a polling loop observes
    (section 4.2): a record, or the polling window elapsing. *)
Inductive PollEvent :=
  | Arrived (st : Stored)
  | WindowElapsed.

(** Modelled from the spec: the Batch Accumulator's state (section 4.4), with
    the envelopes flushed so far. *)
Record Accumulator := mkAccumulator {
  pending : list Stored;
  flushed : list Envelope
}.

(** Modelled from the spec: the Batch Accumulator's transitions
    (section 4.4): flush when the count reaches [max_records] (if set) or when
    the polling window elapses with at least one item. *)
Definition accumulate (max_records : option nat) (a : Accumulator) (ev : PollEvent)
    : Accumulator :=
  match ev with
  | Arrived st =>
      let acc := pending a ++ [st] in
      if decide (max_records = Some (length acc))
      then mkAccumulator [] (flushed a ++ flush acc)
      else mkAccumulator acc (flushed a)
  | WindowElapsed => mkAccumulator [] (flushed a ++ flush (pending a))
  end.

(** Modelled from the spec: a batched polling loop, from the empty
    accumulator. *)
Definition run_batch (max_records : option nat) (events : list PollEvent)
    : Accumulator :=
  foldl (accumulate max_records) (mkAccumulator [] []) events.

(** The records among the events of a loop, in arrival order. *)
Definition arrivals (events : list PollEvent) : list Stored :=
  omap (λ ev, match ev with Arrived st => Some st | WindowElapsed => None end) events.

(** Modelled from the spec: the mode dispatch of section 4.2, as far as the
    envelopes handed to the handler go.  Pub/sub and pattern subscriptions
    never batch; list and stream subscriptions batch when asked to. *)
Definition consume (d : Destination) (events : list PollEvent) : list Envelope :=
  match mode d with
  | PUBSUB | PATTERN => envelope_of <$> arrivals events
  | LIST | STREAM =>
      if batch d then flushed (run_batch (max_records d) events)
      else envelope_of <$> arrivals events
  end.

(** Modelled from the spec: the Acknowledgement Controller of section 4.3.
    Every transition leaves [PENDING]; for a stream with a group, [ack] issues
    the acknowledgement call for the envelope's entry ids and [nack] issues
    nothing; elsewhere both issue nothing.  The spec names [REJECTED] but gives
    no broker call for it, and no operation here enters it. *)
Inductive AckState := PENDING | ACKED | NACKED | REJECTED.

(** Modelled from the spec: the broker primitives a group consumption calls
    (section 6: stream-read-group, stream-ack). *)
Inductive RedisCall :=
  | XREADGROUP (group consumer stream last_id : string)
  | XACK (stream group : string) (ids : list string).

(** Modelled from the spec: the controller's record of one delivered message
    (section 4.3): where it came from, the entry ids it stands for, its state. *)
Record Tracked := mkTracked {
  origin : Destination;
  entry_ids : list string;
  state : AckState
}.

Definition settle (st : AckState) (m : Tracked) : Tracked :=
  mkTracked (origin m) (entry_ids m) st.

(** Modelled from the spec: [ack(envelope)] (section 4.3). *)
Definition ack (m : Tracked) : Tracked * list RedisCall :=
  match state m with
  | PENDING =>
      (settle ACKED m,
       match group_of (origin m) with
       | Some g => [XACK (name (origin m)) g (entry_ids m)]
       | None => []
       end)
  | _ => (m, [])
  end.

(** Modelled from the spec: [nack(envelope)] (section 4.3). *)
Definition nack (m : Tracked) : Tracked * list RedisCall :=
  match state m with
  | PENDING => (settle NACKED m, [])
  | _ => (m, [])
  end.

(** Modelled from the spec: what a handler does with the message it is given
    (sections 4.3 and 9: it may call [ack] and [nack]) and how it ends
    (section 7: it may raise). *)
Inductive HandlerOp := CallAck | CallNack.

Inductive Outcome := Returns | Raises.

Record Handler := mkHandler {
  ops : list HandlerOp;
  outcome : Outcome
}.

(** Modelled from the spec: the handler's calls applied in order, with the
    broker calls they issue. *)
Fixpoint run_ops (os : list HandlerOp) (m : Tracked) : Tracked * list RedisCall :=
  match os with
  | [] => (m, [])
  | o :: os' =>
      let (m1, calls1) := match o with CallAck => ack m | CallNack => nack m end in
      let (m2, calls2) := run_ops os' m1 in
      (m2, calls1 ++ calls2)
  end.

(** Modelled from the spec: the handling of one delivery (sections 4.3, 7 and
    8).  The handler runs on the pending message; a handler that completes
    leaves a still pending message to be acknowledged, a handler that raises
    leaves it as if nacked. *)
Definition handle (d : Destination) (ids : list string) (h : Handler)
    : list RedisCall :=
  let (m, calls) := run_ops (ops h) (mkTracked d ids PENDING) in
  calls ++ (match outcome h with Returns => ack m | Raises => nack m end).2.

(** Modelled from the spec: one iteration of the stream+group loop
    (section 4.2): the entry is read through the group and consumer from the
    subscriber's [last_id] and then handled. *)
Definition consume_group_entry (sub : Subscriber) (id : string) (h : Handler)
    : list RedisCall :=
  let d := destination sub in
  match group_of d, last_id sub with
  | Some g, Some from =>
      XREADGROUP g (default "" (consumer d)) (name d) from :: handle d [id] h
  | _, _ => handle d [id] h
  end.

(** The acknowledgement calls of a trace for one entry of a stream and group
    (what the spy on [Redis.xack] records). *)
Definition is_xack_for (stream g id : string) (c : RedisCall) : bool :=
  match c with
  | XACK s' g' ids => bool_decide (s' = stream ∧ g' = g ∧ id ∈ ids)
  | XREADGROUP _ _ _ _ => false
  end.

Definition xack_calls (stream g id : string) (calls : list RedisCall)
    : list RedisCall :=
  filter (λ c, is_xack_for stream g id c = true) calls.

(** An envelope as one publish call with headers [hs] and correlation id
    [cid] determines it: aligned, with the call's headers on the envelope and
    on every item. *)
Definition from_one_publish (hs : option (gmap string string)) (cid : string)
    (e : Envelope) : Prop :=
  length (batch_headers e) = body_length (body e) ∧
  (∃ c, headers e !! "correlation_id" = Some c ∧
        Forall (λ bh, bh !! "correlation_id" = Some c) (batch_headers e)) ∧
  (∀ k v, default ∅ hs !! k = Some v → headers e !! k = Some v).

(** *** Concrete destinations and events *)


(** A list ["q"] consumed in batches of two. *)
Definition list_q_pairs : Destination := ListSub "q" true (Some 2) (Some 10).

(** The three records of one publish call, with a window elapsing after the
    last. *)
Definition three_arrivals : list PollEvent :=
  (Arrived <$> (frame (Some {["custom" := "1"]}) "c"
                  <$> [Text "a"; Bytes [x01]; Text "b"]))
  ++ [WindowElapsed].

(** *** The scenarios of [test_consume.py]

    Each definition is what the test's spy or mock has recorded when the test
    makes its assertion. *)






(** [TestConsumeList.test_consume_list_batch_with_one]: a batch subscriber with
    [max_records=1]; the engine publishes ["hi"]. *)
Definition test_consume_list_batch_with_one (queue correlation_id : string)
    : list Body :=
  body <$> consume (ListSub queue true (Some 1) (Some 10))
                   ((Arrived <$> publish (Text "hi") None correlation_id)
                    ++ [WindowElapsed]).

(** [TestConsumeList.test_consume_list_batch]:
    [publish_batch(1, "hi", list=queue)]; the test compares the received list
    as a set with [{1, "hi"}]. *)
Definition test_consume_list_batch (queue correlation_id : string) : list Body :=
  body <$> consume (ListSub queue true None (Some 10))
                   ((Arrived <$> publish_batch [Int 1; Text "hi"] correlation_id)
                    ++ [WindowElapsed]).


(** [TestConsumeStream.test_consume_stream]: the engine publishes ["hello"] to
    the stream. *)
Definition test_consume_stream (queue correlation_id : string) : list Body :=
  body <$> consume (StreamSub queue (Some 10) None None false None)
                   (Arrived <$> publish (Text "hello") None correlation_id).


(** [TestConsumeStream.test_consume_stream_batch]: a batched stream; the
    engine publishes ["hello"]. *)
Definition test_consume_stream_batch (queue correlation_id : string) : list Body :=
  body <$> consume (StreamSub queue (Some 10) None None true None)
                   ((Arrived <$> publish (Text "hello") None correlation_id)
                    ++ [WindowElapsed]).


(** The [check] of the two batch-header tests:
    [all((msg.headers, msg.headers["correlation_id"] ==
    msg.batch_headers[0]["correlation_id"], msg.headers.get("custom") == "1"))].
    The tuple is built before [all] runs, so a missing key or index raises
    ([None]). *)
Definition check (msg : Envelope) : option bool :=
  c ← headers msg !! "correlation_id";
  first ← batch_headers msg !! 0;
  c0 ← first !! "correlation_id";
  Some (bool_decide (headers msg ≠ ∅)
        && bool_decide (c = c0)
        && bool_decide (headers msg !! "custom" = Some "1")).

(** [TestConsumeList.test_consume_list_batch_headers]: a batch subscriber with
    no [max_records]; [publish("", list=queue, headers={"custom": "1"})]; what
    [mock] was called with. *)
Definition test_consume_list_batch_headers (queue correlation_id : string)
    : list (option bool) :=
  check <$> consume (ListSub queue true None (Some 10))
                    ((Arrived <$> publish (Text "") (Some {["custom" := "1"]})
                                          correlation_id)
                     ++ [WindowElapsed]).

(** [TestConsumeStream.test_consume_stream_batch_headers]: the same on a
    batched stream. *)
Definition test_consume_stream_batch_headers (queue correlation_id : string)
    : list (option bool) :=
  check <$> consume (StreamSub queue (Some 10) None None true None)
                    ((Arrived <$> publish (Text "") (Some {["custom" := "1"]})
                                          correlation_id)
                     ++ [WindowElapsed]).

(** [TestConsumeStream.test_consume_group]:
    [next(iter(full_broker._subscribers.values())).last_id] after
    [StreamSub(queue, group="group", consumer=queue)] is registered. *)
Definition test_consume_group (queue : string) : option (option string) :=
  last_id <$> head (_subscribers
    (subscriber (StreamSub queue None (Some "group") (Some queue) false None)
                empty_broker)).

(** [TestConsumeStream.test_consume_group_with_last_id]: the same with
    [last_id="0"]. *)
Definition test_consume_group_with_last_id (queue : string) : option (option string) :=
  last_id <$> head (_subscribers
    (subscriber (StreamSub queue None (Some "group") (Some queue) false (Some "0"))
                empty_broker)).

(** The registered subscriber of the ack and nack tests. *)
Definition group_subscriber (queue : string) : list Subscriber :=
  _subscribers
    (subscriber (StreamSub queue None (Some "group") (Some queue) false None)
                empty_broker).

(** [TestConsumeStream.test_consume_nack]: the handler sets the event and
    awaits [msg.nack()]; the calls the spy on [Redis.xack] has recorded for the
    entry [id] the published ["hello"] was given. *)
Definition test_consume_nack (queue id : string) : list RedisCall :=
  sub ← group_subscriber queue;
  xack_calls queue "group" id
    (consume_group_entry sub id (mkHandler [CallNack] Returns)).

(** [TestConsumeStream.test_consume_ack]: the handler only sets the event. *)
Definition test_consume_ack (queue id : string) : list RedisCall :=
  sub ← group_subscriber queue;
  xack_calls queue "group" id
    (consume_group_entry sub id (mkHandler [] Returns)).

End Redis.

(* ===================================================================== *)
(** ** Part II.  The Kafka router                                        *)
(* ===================================================================== *)

Lemma string_length_app (s1 s2 : string) :
  String.length (s1 ++ s2) = String.length s1 + String.length s2.
Proof. induction s1 as [| a s1 IH]; simpl; [reflexivity | by rewrite IH]. Qed.

(** A string that absorbs a prefix has the empty prefix. *)
Lemma string_app_absorb (p a : string) : p ++ a = a → p = "".
Proof.
  intros H. apply (f_equal String.length) in H. rewrite string_length_app in H.
  destruct p; [reflexivity | simpl in H; lia].
Qed.

Section RouterFacts.

Import Kafka.

Context {Any : Type}.

Implicit Types (s : State Any) (c : Call Any) (cs : list (Call Any)) (l : loc).

Lemma fresh_not_allocated s : heap s !! fresh (dom (heap s)) = None.
Proof. apply not_elem_of_dom, is_fresh. Qed.

Lemma allocated_not_fresh s l (p : Publisher Any) :
  heap s !! l = Some p → l ≠ fresh (dom (heap s)).
Proof. intros H ->. rewrite fresh_not_allocated in H. discriminate. Qed.

(** The candidate's construction in closed form: one object is allocated at the
    next free address and holds the prefixed candidate. *)
Lemma new_publisher_eq s c :
  new_publisher c s =
  Some (fresh (dom (heap s)),
        mkState (<[fresh (dom (heap s)) := candidate s c]> (heap s)) (self s)).
Proof.
  unfold new_publisher, _update_publisher_prefix, bind, get_self, new, load, store, ret.
  cbn. rewrite lookup_insert_eq. cbn. rewrite lookup_insert_eq. cbn.
  rewrite insert_insert_eq. reflexivity.
Qed.

(** [publisher] in closed form. *)
Lemma publisher_eq s c :
  publisher c s =
  let l0 := fresh (dom (heap s)) in
  let k := resolved_key s c in
  let l := default l0 (_publishers (self s) !! k) in
  Some (l, mkState (<[l0 := candidate s c]> (heap s))
                   (set_publishers (<[k := l]> (_publishers (self s))) (self s))).
Proof.
  unfold publisher, bind. rewrite new_publisher_eq.
  unfold _get_publisher_key, bind, load, get_self, put_publishers, ret.
  cbn. rewrite lookup_insert_eq. reflexivity.
Qed.

Lemma registry_consistent_init (pre : string) (inc : option bool) :
  registry_consistent (init (Any := Any) pre inc).
Proof. intros k l H. cbn in H. rewrite lookup_empty in H. discriminate. Qed.

Lemma registry_consistent_publisher s c l s' :
  registry_consistent s → publisher c s = Some (l, s') → registry_consistent s'.
Proof.
  intros Hs. rewrite publisher_eq. cbn. intros [= <- <-] k l1. cbn.
  destruct (decide (resolved_key s c = k)) as [<- | Hne].
  - rewrite lookup_insert_eq. intros [= <-].
    destruct (_publishers (self s) !! resolved_key s c) as [l2 |] eqn:E; cbn.
    + destruct (Hs _ _ E) as (p & Hp & Ht). exists p. split; [| exact Ht].
      rewrite lookup_insert_ne; [exact Hp |]. symmetry. eapply allocated_not_fresh, Hp.
    + exists (candidate s c). rewrite lookup_insert_eq. done.
  - rewrite lookup_insert_ne by done. intros E.
    destruct (Hs _ _ E) as (p & Hp & Ht). exists p. split; [| exact Ht].
    rewrite lookup_insert_ne; [exact Hp |]. symmetry. eapply allocated_not_fresh, Hp.
Qed.

(** Hence every router reached from a new one by registration calls is
    consistent. *)
Lemma registry_consistent_publisher_calls cs : ∀ s ls s',
  registry_consistent s → publisher_calls cs s = Some (ls, s') →
  registry_consistent s'.
Proof.
  induction cs as [| c cs IH]; intros s ls s' Hs Hrun.
  - cbn in Hrun. by injection Hrun as _ <-.
  - cbn [publisher_calls] in Hrun. unfold bind at 1 in Hrun.
    destruct (publisher c s) as [[l s1] |] eqn:Hcall; [| discriminate].
    unfold bind at 1 in Hrun.
    destruct (publisher_calls cs s1) as [[ls1 s2] |] eqn:Hrest; [| discriminate].
    injection Hrun as _ <-.
    eapply IH; [| exact Hrest]. by eapply registry_consistent_publisher.
Qed.

(** Objects that exist before a call are not touched by it. *)
Lemma publisher_heap_frame s c l s' l0 (p : Publisher Any) :
  publisher c s = Some (l, s') → heap s !! l0 = Some p → heap s' !! l0 = Some p.
Proof.
  rewrite publisher_eq. cbn. intros [= <- <-] Hp. cbn.
  rewrite lookup_insert_ne; [exact Hp |]. symmetry. eapply allocated_not_fresh, Hp.
Qed.

Lemma publisher_prefix_kept s c l s' :
  publisher c s = Some (l, s') →
  prefix (self s') = prefix (self s) ∧
  router_include_in_schema (self s') = router_include_in_schema (self s).
Proof. rewrite publisher_eq. cbn. intros [= <- <-]. done. Qed.

(** A call whose key is registered returns the stored reference and leaves the
    router as it was. *)
Lemma publisher_present s c l :
  _publishers (self s) !! resolved_key s c = Some l →
  publisher c s =
  Some (l, mkState (<[fresh (dom (heap s)) := candidate s c]> (heap s)) (self s)).
Proof.
  intros E. rewrite publisher_eq. cbn. rewrite E. cbn.
  rewrite (insert_id (_publishers (self s)) _ _ E). destruct (self s); reflexivity.
Qed.

(** A call whose key is not registered stores and returns its candidate. *)
Lemma publisher_absent s c :
  _publishers (self s) !! resolved_key s c = None →
  publisher c s =
  Some (fresh (dom (heap s)),
        mkState (<[fresh (dom (heap s)) := candidate s c]> (heap s))
                (set_publishers
                   (<[resolved_key s c := fresh (dom (heap s))]> (_publishers (self s)))
                   (self s))).
Proof. intros E. rewrite publisher_eq. cbn. rewrite E. reflexivity. Qed.

(** Once a key is registered, any number of further calls resolving to it
    return the stored reference, and neither the registry nor the stored object
    changes. *)
Lemma publisher_calls_present cs : ∀ s k l (p : Publisher Any),
  _publishers (self s) !! k = Some l →
  heap s !! l = Some p →
  Forall (λ c, prefix (self s) ++ arg_topic c = k) cs →
  ∃ s', publisher_calls cs s = Some (replicate (length cs) l, s') ∧
        self s' = self s ∧ heap s' !! l = Some p.
Proof.
  induction cs as [| c cs IH]; intros s k l p Hreg Hp Hall.
  - exists s. done.
  - apply Forall_cons in Hall as [Hc Hall].
    assert (Hk : _publishers (self s) !! resolved_key s c = Some l)
      by (unfold resolved_key; rewrite Hc; exact Hreg).
    pose proof (publisher_present _ _ _ Hk) as Hcall.
    set (s1 := mkState (<[fresh (dom (heap s)) := candidate s c]> (heap s)) (self s))
      in Hcall.
    assert (Hp1 : heap s1 !! l = Some p) by (eapply publisher_heap_frame; eauto).
    destruct (IH s1 k l p Hreg Hp1 Hall) as (s' & Hrun & Hself & Hp').
    exists s'. split; [| done].
    cbn [publisher_calls]. unfold bind at 1. rewrite Hcall.
    unfold bind at 1. rewrite Hrun. reflexivity.
Qed.

(** C1 (dedup invariant).  On a router whose registry is consistent, a
    non-empty sequence of [publisher()] calls that all resolve to the key of
    the first call returns one and the same reference from every call; the
    object behind it is the one stored under that key, and its topic is the
    router's prefix followed by the first call's topic argument. *)
Theorem publisher_dedup s c0 cs :
  registry_consistent s →
  Forall (λ c, resolved_key s c = resolved_key s c0) cs →
  ∃ l s' p,
    publisher_calls (c0 :: cs) s = Some (replicate (S (length cs)) l, s') ∧
    _publishers (self s') !! resolved_key s c0 = Some l ∧
    heap s' !! l = Some p ∧
    topic p = prefix (self s) ++ arg_topic c0.
Proof.
  intros Hs Hall.
  destruct (publisher c0 s) as [[l s1] |] eqn:Hcall;
    [| rewrite publisher_eq in Hcall; discriminate].
  pose proof (registry_consistent_publisher _ _ _ _ Hs Hcall) as Hs1.
  pose proof (publisher_prefix_kept _ _ _ _ Hcall) as [Hpre _].
  assert (Hreg : _publishers (self s1) !! resolved_key s c0 = Some l).
  { rewrite publisher_eq in Hcall. cbn in Hcall. injection Hcall as <- <-.
    cbn. apply lookup_insert_eq. }
  destruct (Hs1 _ _ Hreg) as (p & Hp & Ht).
  assert (Hall1 : Forall (λ c, prefix (self s1) ++ arg_topic c = resolved_key s c0) cs).
  { rewrite Hpre. exact Hall. }
  destruct (publisher_calls_present cs s1 _ l p Hreg Hp Hall1) as (s' & Hrun & Hself & Hp').
  exists l, s', p. repeat split.
  - cbn [publisher_calls]. unfold bind at 1. rewrite Hcall.
    unfold bind at 1. rewrite Hrun. reflexivity.
  - rewrite Hself. exact Hreg.
  - exact Hp'.
  - exact Ht.
Qed.

(** C2 (prefix applied once).  Two [publisher()] calls with the same topic [a]
    on a router with prefix [p] return the same reference; the object behind it
    has topic [p ++ a] after the first call and is the very same value after
    the second, so the prefix is not applied to it again.  Its topic differs
    from [p ++ p ++ a] whenever [p] is not empty. *)
Theorem prefix_applied_once s c1 c2 :
  registry_consistent s →
  arg_topic c2 = arg_topic c1 →
  ∃ l s1 s2 p,
    publisher c1 s = Some (l, s1) ∧
    publisher c2 s1 = Some (l, s2) ∧
    heap s1 !! l = Some p ∧
    heap s2 !! l = Some p ∧
    topic p = prefix (self s) ++ arg_topic c1 ∧
    (prefix (self s) ≠ "" →
     topic p ≠ prefix (self s) ++ prefix (self s) ++ arg_topic c1).
Proof.
  intros Hs Ht.
  destruct (publisher c1 s) as [[l s1] |] eqn:Hcall;
    [| rewrite publisher_eq in Hcall; discriminate].
  pose proof (registry_consistent_publisher _ _ _ _ Hs Hcall) as Hs1.
  pose proof (publisher_prefix_kept _ _ _ _ Hcall) as [Hpre _].
  assert (Hreg : _publishers (self s1) !! resolved_key s c1 = Some l).
  { rewrite publisher_eq in Hcall. cbn in Hcall. injection Hcall as <- <-.
    cbn. apply lookup_insert_eq. }
  destruct (Hs1 _ _ Hreg) as (p & Hp & Htp).
  assert (Hreg2 : _publishers (self s1) !! resolved_key s1 c2 = Some l).
  { unfold resolved_key in *. rewrite Hpre, Ht. exact Hreg. }
  pose proof (publisher_present _ _ _ Hreg2) as Hcall2.
  eexists l, s1, _, p. repeat split.
  - exact Hcall2.
  - exact Hp.
  - eapply publisher_heap_frame; eauto.
  - exact Htp.
  - intros Hne Heq. rewrite Htp in Heq. unfold resolved_key in Heq.
    apply (inj (String.app _)) in Heq. symmetry in Heq.
    apply string_app_absorb in Heq. contradiction.
Qed.

(** C3 (a later registration changes nothing).  When the key a call resolves
    to is already registered, the call returns the stored reference; the object
    behind it and the whole router are exactly as before, whatever the call's
    other arguments are; the candidate built by the call is referenced neither
    by the result nor by any registry entry. *)
Theorem publisher_existing_unchanged s c l :
  registry_consistent s →
  _publishers (self s) !! resolved_key s c = Some l →
  ∃ p s',
    heap s !! l = Some p ∧
    publisher c s = Some (l, s') ∧
    heap s' !! l = Some p ∧
    self s' = self s ∧
    (∀ l0 q, heap s !! l0 = Some q → heap s' !! l0 = Some q) ∧
    l ≠ fresh (dom (heap s)) ∧
    (∀ k, _publishers (self s') !! k ≠ Some (fresh (dom (heap s)))).
Proof.
  intros Hs Hreg. destruct (Hs _ _ Hreg) as (p & Hp & _).
  pose proof (publisher_present _ _ _ Hreg) as Hcall.
  eexists p, _. split; [exact Hp |]. split; [exact Hcall |].
  split; [eapply publisher_heap_frame; eauto |].
  split; [reflexivity |].
  split; [intros l0 q Hq; eapply publisher_heap_frame; eauto |].
  split; [eapply allocated_not_fresh, Hp |].
  intros k Hk. cbn in Hk. destruct (Hs _ _ Hk) as (q & Hq & _).
  by apply allocated_not_fresh in Hq.
Qed.

(** The key read off a call's candidate is the prefixed topic. *)
Lemma candidate_key s c :
  ∃ n t, new_publisher c s = Some (n, t) ∧
         _get_publisher_key n t = Some (resolved_key s c, t).
Proof.
  eexists _, _. rewrite new_publisher_eq. split; [reflexivity |].
  unfold _get_publisher_key, bind, load, ret. cbn. by rewrite lookup_insert_eq.
Qed.

(** The registry is updated at the prefixed topic and nowhere else. *)
Lemma publisher_registry_update s c :
  ∃ l s', publisher c s = Some (l, s') ∧
          _publishers (self s') = <[resolved_key s c := l]> (_publishers (self s)).
Proof. eexists _, _. rewrite publisher_eq. cbn. split; reflexivity. Qed.

(** C8 (the key is the topic).  [_get_publisher_key] returns the [topic] field
    of the object it is given and changes nothing.  The key of a call's
    candidate, and the key under which [publisher()] updates the registry, is
    the prefixed topic; so two calls with equal prefixed topics resolve to one
    key, whatever their other arguments and whatever objects they allocate. *)
Theorem publisher_key_is_topic s1 s2 c1 c2 :
  prefix (self s1) ++ arg_topic c1 = prefix (self s2) ++ arg_topic c2 →
  (∀ l p, heap s1 !! l = Some p → _get_publisher_key l s1 = Some (topic p, s1)) ∧
  ∃ k n1 t1 n2 t2 l1 s1' l2 s2',
    k = prefix (self s1) ++ arg_topic c1 ∧
    new_publisher c1 s1 = Some (n1, t1) ∧ _get_publisher_key n1 t1 = Some (k, t1) ∧
    new_publisher c2 s2 = Some (n2, t2) ∧ _get_publisher_key n2 t2 = Some (k, t2) ∧
    publisher c1 s1 = Some (l1, s1') ∧
    _publishers (self s1') = <[k := l1]> (_publishers (self s1)) ∧
    publisher c2 s2 = Some (l2, s2') ∧
    _publishers (self s2') = <[k := l2]> (_publishers (self s2)).
Proof.
  intros Hk. split.
  - intros l p Hp. unfold _get_publisher_key, bind, load, ret. by rewrite Hp.
  - destruct (candidate_key s1 c1) as (n1 & t1 & Hn1 & Hk1).
    destruct (candidate_key s2 c2) as (n2 & t2 & Hn2 & Hk2).
    destruct (publisher_registry_update s1 c1) as (l1 & s1' & Hp1 & Hr1).
    destruct (publisher_registry_update s2 c2) as (l2 & s2' & Hp2 & Hr2).
    unfold resolved_key in *. rewrite <- Hk in Hk2, Hr2.
    exists (prefix (self s1) ++ arg_topic c1), n1, t1, n2, t2, l1, s1', l2, s2'.
    done.
Qed.

(** C9 (the router's [include_in_schema] wins).  The object created by a call
    carries the router's own [include_in_schema] when that attribute is set,
    and the call's argument only when it is [None]; that object is what
    [publisher()] returns when the key was not registered before. *)
Theorem include_in_schema_router_first s c :
  ∃ l s' p,
    new_publisher c s = Some (l, s') ∧
    heap s' !! l = Some p ∧
    (∀ b, router_include_in_schema (self s) = Some b → include_in_schema p = b) ∧
    (router_include_in_schema (self s) = None →
     include_in_schema p = arg_include_in_schema c) ∧
    (_publishers (self s) !! resolved_key s c = None →
     ∃ s'', publisher c s = Some (l, s'') ∧ heap s'' !! l = Some p).
Proof.
  eexists _, _, (candidate s c). rewrite new_publisher_eq.
  split; [reflexivity |]. cbn. rewrite lookup_insert_eq.
  split; [reflexivity |].
  split; [intros b Hb; by rewrite Hb |].
  split; [intros Hb; by rewrite Hb |].
  intros Habs. rewrite (publisher_absent _ _ Habs). eexists. split; [reflexivity |].
  cbn. apply lookup_insert_eq.
Qed.

(** C10 (frame).  A call always succeeds and leaves an entry at its resolved
    key; every other key is mapped as before, and every object that existed
    before the call, in particular each one stored under another key, is
    unchanged. *)
Theorem publisher_frame s c :
  ∃ l s',
    publisher c s = Some (l, s') ∧
    _publishers (self s') !! resolved_key s c = Some l ∧
    (∀ k, k ≠ resolved_key s c →
          _publishers (self s') !! k = _publishers (self s) !! k) ∧
    (∀ k l0 p, k ≠ resolved_key s c →
               _publishers (self s) !! k = Some l0 → heap s !! l0 = Some p →
               _publishers (self s') !! k = Some l0 ∧ heap s' !! l0 = Some p).
Proof.
  destruct (publisher c s) as [[l s'] |] eqn:Hcall;
    [| rewrite publisher_eq in Hcall; discriminate].
  exists l, s'. split; [reflexivity |].
  pose proof Hcall as Hcall'. rewrite publisher_eq in Hcall'. cbn in Hcall'.
  injection Hcall' as Hl Hs'.
  assert (Hother : ∀ k, k ≠ resolved_key s c →
            _publishers (self s') !! k = _publishers (self s) !! k).
  { intros k Hne. rewrite <- Hs'. cbn. by rewrite lookup_insert_ne. }
  split; [rewrite <- Hs'; cbn; rewrite lookup_insert_eq; by rewrite Hl |].
  split; [exact Hother |].
  intros k l0 p Hne Hk Hp. split.
  - by rewrite Hother.
  - eapply publisher_heap_frame; eauto.
Qed.

End RouterFacts.

(** *** Concrete runs *)

Section RouterRuns.

Import Kafka.

Lemma publisher_dedup_witness :
  ∃ l s' p,
    publisher_calls [call_a; call_a_again; call_a] router_pre
      = Some (replicate 3 l, s') ∧
    _publishers (self s') !! "pre_a" = Some l ∧
    heap s' !! l = Some p ∧
    topic p = "pre_a".
Proof.
  apply (publisher_dedup router_pre call_a [call_a_again; call_a]).
  - apply registry_consistent_init.
  - repeat constructor.
Defined.

(** C2, as stated for every prefix, fails at the empty prefix: there the topic
    after two calls is [p ++ p ++ a], because that string is [p ++ a]. *)
Lemma prefix_twice_at_empty_prefix :
  ¬ ∀ (pre a : string) l s1 s2 (p : Publisher unit),
      publisher (default_call a) (init pre None) = Some (l, s1) →
      publisher (default_call a) s1 = Some (l, s2) →
      heap s2 !! l = Some p →
      topic p = pre ++ a ∧ topic p ≠ pre ++ pre ++ a.
Proof.
  intros H.
  destruct (publisher (default_call "a") (init (Any := unit) "" None))
    as [[l s1] |] eqn:E1; [| vm_compute in E1; discriminate].
  destruct (publisher (default_call "a") s1) as [[l' s2] |] eqn:E2;
    [| rewrite publisher_eq in E2; discriminate].
  assert (l' = l) as ->.
  { vm_compute in E1. injection E1 as <- <-. vm_compute in E2. by injection E2. }
  assert (Hp : heap s2 !! l = Some (candidate (init "" None) (default_call "a"))).
  { vm_compute in E1. injection E1 as <- <-. vm_compute in E2. injection E2 as <-.
    vm_compute. reflexivity. }
  destruct (H "" "a" l s1 s2 _ E1 E2 Hp) as [_ Hne]. apply Hne. reflexivity.
Qed.

Lemma prefix_applied_once_witness :
  ∃ l s1 s2 p,
    publisher call_a router_pre = Some (l, s1) ∧
    publisher call_a_again s1 = Some (l, s2) ∧
    heap s1 !! l = Some p ∧
    heap s2 !! l = Some p ∧
    topic p = "pre_a" ∧
    ("pre_" ≠ "" → topic p ≠ "pre_pre_a").
Proof.
  apply (prefix_applied_once router_pre call_a call_a_again).
  - apply registry_consistent_init.
  - reflexivity.
Defined.

Lemma registry_consistent_router_with_a : registry_consistent router_with_a.
Proof.
  intros k l H. cbn in H. apply lookup_singleton_Some in H as [<- <-].
  eexists. split; [apply lookup_singleton_eq | reflexivity].
Qed.

Lemma publisher_existing_unchanged_witness :
  ∃ p s',
    heap router_with_a !! 1%positive = Some p ∧
    publisher call_a_again router_with_a = Some (1%positive, s') ∧
    heap s' !! 1%positive = Some p ∧
    self s' = self router_with_a ∧
    (∀ l0 q, heap router_with_a !! l0 = Some q → heap s' !! l0 = Some q) ∧
    1%positive ≠ fresh (dom (heap router_with_a)) ∧
    (∀ k, _publishers (self s') !! k
          ≠ Some (fresh (dom (heap router_with_a)))).
Proof.
  apply (publisher_existing_unchanged router_with_a call_a_again 1%positive).
  - apply registry_consistent_router_with_a.
  - vm_compute. reflexivity.
Defined.

Lemma publisher_key_is_topic_witness :
  (∀ l p, heap router_a_ !! l = Some p →
          _get_publisher_key l router_a_ = Some (topic p, router_a_)) ∧
  ∃ k n1 t1 n2 t2 l1 s1' l2 s2',
    k = "a_b_a" ∧
    new_publisher call_b_a router_a_ = Some (n1, t1) ∧
    _get_publisher_key n1 t1 = Some (k, t1) ∧
    new_publisher call_a_b_a router_empty = Some (n2, t2) ∧
    _get_publisher_key n2 t2 = Some (k, t2) ∧
    publisher call_b_a router_a_ = Some (l1, s1') ∧
    _publishers (self s1')
      = <[k := l1]> (_publishers (self router_a_)) ∧
    publisher call_a_b_a router_empty = Some (l2, s2') ∧
    _publishers (self s2')
      = <[k := l2]> (_publishers (self router_empty)).
Proof.
  apply (publisher_key_is_topic router_a_ router_empty call_b_a call_a_b_a).
  reflexivity.
Defined.

End RouterRuns.

(* ===================================================================== *)
(** ** Part III.  The Redis consume contract                             *)
(* ===================================================================== *)

Section RedisFacts.

Import Redis.

Local Open Scope list_scope.

Implicit Types (d : Destination) (m : Tracked) (h : Handler) (st : Stored).
Implicit Types (os : list HandlerOp) (events : list PollEvent).

(** **** Acknowledgement *)

Lemma run_ops_app os1 os2 m :
  run_ops (os1 ++ os2) m =
  ((run_ops os2 (run_ops os1 m).1).1,
   (run_ops os1 m).2 ++ (run_ops os2 (run_ops os1 m).1).2).
Proof.
  revert m. induction os1 as [| o os1 IH]; intros m; cbn.
  - by destruct (run_ops os2 m).
  - destruct (match o with CallAck => ack m | CallNack => nack m end) as [m1 c1].
    rewrite IH. destruct (run_ops os1 m1) as [m2 c2]. cbn.
    destruct (run_ops os2 m2) as [m3 c3]. cbn. by rewrite app_assoc.
Qed.

(** A settled message is left alone: no transition, no call. *)
Lemma run_ops_settled os m :
  state m ≠ PENDING → run_ops os m = (m, []).
Proof.
  revert m. induction os as [| o os IH]; intros m Hm; [reflexivity |].
  cbn. unfold ack, nack.
  destruct o, (state m) eqn:E; try done; by rewrite IH by (rewrite E; done).
Qed.

(** A handler that only nacks issues no call and leaves the message pending
    (no operation at all) or nacked. *)
Lemma run_ops_no_ack os m :
  CallAck ∉ os → state m = PENDING →
  (run_ops os m).2 = [] ∧
  ((run_ops os m).1 = m ∨ (run_ops os m).1 = settle NACKED m).
Proof.
  destruct os as [| [|] os]; intros Hno Hm.
  - cbn. split; [done | by left].
  - exfalso. apply Hno. left.
  - cbn. unfold nack. rewrite Hm. rewrite run_ops_settled by done.
    cbn. split; [done | by right].
Qed.

(** A handler that only acks issues at most the one acknowledgement. *)
Lemma run_ops_no_nack os m :
  CallNack ∉ os → state m = PENDING →
  run_ops os m = (m, []) ∨ run_ops os m = (ack m).
Proof.
  destruct os as [| [|] os]; intros Hno Hm.
  - by left.
  - right. cbn. unfold ack at 1. rewrite Hm. rewrite run_ops_settled by done.
    unfold ack. rewrite Hm. by rewrite app_nil_r.
  - exfalso. apply Hno. left.
Qed.

Lemma xack_calls_own (stream g id : string) :
  xack_calls stream g id [XACK stream g [id]] = [XACK stream g [id]].
Proof.
  unfold xack_calls. rewrite filter_cons_True; [done |].
  cbn. apply bool_decide_eq_true. by rewrite list_elem_of_singleton.
Qed.

(** The calls of handling one entry of a stream with a group, by what the
    handler does. *)
Lemma handle_acknowledged d g id h :
  group_of d = Some g → outcome h = Returns → CallNack ∉ ops h →
  handle d [id] h = [XACK (name d) g [id]].
Proof.
  intros Hg Hout Hno. unfold handle. rewrite Hout.
  destruct (run_ops_no_nack (ops h) (mkTracked d [id] PENDING) Hno eq_refl) as [E | E];
    rewrite E; unfold ack; cbn; rewrite Hg; [done | by rewrite app_nil_r].
Qed.

Lemma handle_nacked d id h pre post :
  ops h = pre ++ CallNack :: post → CallAck ∉ pre →
  handle d [id] h = [].
Proof.
  intros Hops Hpre. unfold handle. rewrite Hops, run_ops_app.
  set (m0 := mkTracked d [id] PENDING).
  destruct (run_ops_no_ack pre m0 Hpre eq_refl) as [Hc Hm].
  rewrite Hc. cbn [app].
  assert (Hn : run_ops (CallNack :: post) (run_ops pre m0).1 = (settle NACKED m0, [])).
  { destruct Hm as [-> | ->]; cbn; unfold nack; cbn; by rewrite run_ops_settled. }
  rewrite Hn. cbn. by destruct (outcome h).
Qed.

(** The acknowledgement calls in the trace of one consumed entry. *)
Lemma consume_group_entry_acknowledged d g id h :
  group_of d = Some g → outcome h = Returns → CallNack ∉ ops h →
  xack_calls (name d) g id
    (consume_group_entry (mkSubscriber d (initial_last_id d)) id h)
  = [XACK (name d) g [id]].
Proof.
  intros Hg Hout Hno. unfold consume_group_entry, initial_last_id. cbn. rewrite Hg.
  rewrite (handle_acknowledged _ _ _ _ Hg Hout Hno).
  unfold xack_calls. rewrite filter_cons_False by (cbn; done).
  apply xack_calls_own.
Qed.

Lemma consume_group_entry_nacked d g id h pre post :
  group_of d = Some g → ops h = pre ++ CallNack :: post → CallAck ∉ pre →
  xack_calls (name d) g id
    (consume_group_entry (mkSubscriber d (initial_last_id d)) id h)
  = [].
Proof.
  intros Hg Hops Hpre. unfold consume_group_entry, initial_last_id. cbn. rewrite Hg.
  rewrite (handle_nacked _ _ _ _ _ Hops Hpre).
  unfold xack_calls. by rewrite filter_cons_False by (cbn; done).
Qed.


(** The two acknowledgement tests hold of the model: the spy has recorded no
    call after the nacking handler and one call after the other. *)
Lemma test_consume_nack_passes (queue id : string) :
  test_consume_nack queue id = [].
Proof.
  unfold test_consume_nack, group_subscriber, subscriber.
  cbn [_subscribers empty_broker app mbind list_bind]. rewrite app_nil_r.
  apply (consume_group_entry_nacked
           (StreamSub queue None (Some "group") (Some queue) false None)
           "group" id (mkHandler [CallNack] Returns) [] []);
    [reflexivity | reflexivity | apply not_elem_of_nil].
Qed.

Lemma test_consume_ack_passes (queue id : string) :
  test_consume_ack queue id = [XACK queue "group" [id]].
Proof.
  unfold test_consume_ack, group_subscriber, subscriber.
  cbn [_subscribers empty_broker app mbind list_bind]. rewrite app_nil_r.
  apply (consume_group_entry_acknowledged
           (StreamSub queue None (Some "group") (Some queue) false None)
           "group" id (mkHandler [] Returns));
    [reflexivity | reflexivity | apply not_elem_of_nil].
Qed.

(** **** Registration of a stream+group subscriber *)

(** C5 (default [last_id]).  A subscriber registered for a stream with a group
    and no explicit [last_id] has [last_id] ["$"]; one registered with
    [last_id="0"] has ["0"] (and any explicit id is kept).  This holds of the
    subscriber added to any broker, and of the first subscriber of a fresh
    broker, which the two tests read. *)
Theorem group_subscriber_last_id (b : RedisBroker) (stream g c : string)
    (interval : option nat) (batched : bool) :
  (last_id <$> last (_subscribers
     (subscriber (StreamSub stream interval (Some g) (Some c) batched None) b))
   = Some (Some "$")) ∧
  (∀ explicit,
     last_id <$> last (_subscribers
       (subscriber (StreamSub stream interval (Some g) (Some c) batched (Some explicit)) b))
     = Some (Some explicit)) ∧
  test_consume_group stream = Some (Some "$") ∧
  test_consume_group_with_last_id stream = Some (Some "0").
Proof.
  unfold subscriber. cbn [_subscribers].
  split; [by rewrite last_snoc |].
  split; [intros explicit; by rewrite last_snoc |].
  split; reflexivity.
Qed.

(** **** Batches *)

Lemma frame_headers hs cid p :
  headers_of (frame hs cid p) = default ∅ hs ∪ {["correlation_id" := cid]}.
Proof. reflexivity. Qed.

(** The headers of a framed record always hold a correlation id. *)
Lemma correlation_id_present (hs : option (gmap string string)) (cid : string) :
  is_Some ((default ∅ hs ∪ {["correlation_id" := cid]}) !! "correlation_id").
Proof.
  apply lookup_union_is_Some. right. rewrite lookup_singleton_eq. by eexists.
Qed.

Lemma flush_from_one_publish hs cid (payloads : list Payload) (acc : list Stored) :
  Forall (λ st, st ∈ frame hs cid <$> payloads) acc →
  Forall (from_one_publish hs cid) (flush acc).
Proof.
  intros Hacc. destruct acc as [| first acc]; [constructor |].
  assert (Hh : Forall (λ st, headers_of st = default ∅ hs ∪ {["correlation_id" := cid]})
                      (first :: acc)).
  { eapply Forall_impl; [exact Hacc |]. cbn. intros st Hst.
    apply list_elem_of_fmap in Hst as (p & -> & _). apply frame_headers. }
  cbn [flush]. constructor; [| constructor].
  unfold from_one_publish. cbn [batch_headers body headers body_length].
  split; [by rewrite !length_fmap |].
  pose proof (Forall_inv Hh) as Hfirst. split.
  - destruct (correlation_id_present hs cid) as [c Hc]. exists c.
    split; [by rewrite Hfirst |].
    apply Forall_fmap. eapply Forall_impl; [exact Hh |]. cbn.
    intros st Hst. by rewrite Hst.
  - intros k v Hk. rewrite Hfirst. by apply lookup_union_Some_l.
Qed.

(** The accumulator's invariant under events whose arrivals all come from one
    publish call. *)
Lemma accumulate_from_one_publish hs cid (payloads : list Payload) max events :
  ∀ a,
    Forall (λ st, st ∈ frame hs cid <$> payloads) (pending a) →
    Forall (from_one_publish hs cid) (flushed a) →
    Forall (λ st, st ∈ frame hs cid <$> payloads) (arrivals events) →
    Forall (from_one_publish hs cid) (flushed (foldl (accumulate max) a events)).
Proof.
  induction events as [| ev events IH]; intros a Hpend Hfl Harr; [exact Hfl |].
  cbn [foldl]. destruct ev as [st |].
  - cbn in Harr. apply Forall_cons in Harr as [Hst Harr].
    assert (Hacc : Forall (λ st, st ∈ frame hs cid <$> payloads) (pending a ++ [st])).
    { apply Forall_app. split; [exact Hpend | by constructor]. }
    apply IH; [| | exact Harr]; unfold accumulate; case_decide; cbn; try done.
    apply Forall_app. split; [exact Hfl |].
    by eapply flush_from_one_publish.
  - cbn in Harr. apply IH; [by constructor | | exact Harr]. cbn.
    apply Forall_app. split; [exact Hfl |]. by eapply flush_from_one_publish.
Qed.

(** C6 (batch alignment).  For a list or stream subscription in batch mode:
    when every record its loop receives was produced by one publish call
    (headers [hs], correlation id [cid], any payloads), then whatever
    [max_records] is and however arrivals and elapsed windows interleave,
    every envelope handed to the handler has as many [batch_headers] as body
    items, the envelope's headers hold a [correlation_id] and every entry of
    [batch_headers] holds that same [correlation_id], and every header given
    to the publish call is among the envelope's headers. *)
Theorem batch_alignment d (hs : option (gmap string string)) (cid : string)
    (payloads : list Payload) events :
  mode d = LIST ∨ mode d = STREAM →
  batch d = true →
  Forall (λ st, st ∈ frame hs cid <$> payloads) (arrivals events) →
  Forall (λ e,
            length (batch_headers e) = body_length (body e) ∧
            (∃ c, headers e !! "correlation_id" = Some c ∧
                  Forall (λ bh, bh !! "correlation_id" = Some c) (batch_headers e)) ∧
            (∀ k v, default ∅ hs !! k = Some v → headers e !! k = Some v))
         (consume d events).
Proof.
  intros Hmode Hbatch Harr.
  assert (Hrun : consume d events = flushed (run_batch (max_records d) events)).
  { unfold consume. rewrite Hbatch. by destruct Hmode as [-> | ->]. }
  rewrite Hrun. unfold run_batch.
  by apply (accumulate_from_one_publish hs cid payloads); [constructor | constructor |].
Qed.

(** The two batch-header tests hold of the model: [mock] is called once, with
    [True]. *)
Lemma check_published (cid : string) (payload : Payload) :
  check <$> flush (publish payload (Some {["custom" := "1"]}) cid) = [Some true].
Proof.
  unfold publish, flush, check. cbn [fmap list_fmap headers batch_headers].
  rewrite frame_headers. cbn [default lookup list_lookup]. unfold id.
  assert (Hc : ({["custom" := "1"]} ∪ {["correlation_id" := cid]} : gmap string string)
               !! "correlation_id" = Some cid).
  { rewrite lookup_union_r by done. apply lookup_singleton_eq. }
  assert (Hk : ({["custom" := "1"]} ∪ {["correlation_id" := cid]} : gmap string string)
               !! "custom" = Some "1").
  { apply lookup_union_Some_l. apply lookup_singleton_eq. }
  rewrite Hc. cbn [mbind option_bind]. rewrite Hc. cbn [mbind option_bind]. rewrite Hk.
  rewrite !bool_decide_eq_true_2; [reflexivity | done | done |].
  intros He. rewrite He in Hk. by rewrite lookup_empty in Hk.
Qed.

Lemma test_consume_list_batch_headers_passes (queue cid : string) :
  test_consume_list_batch_headers queue cid = [Some true].
Proof. apply (check_published cid (Text "")). Qed.

Lemma test_consume_stream_batch_headers_passes (queue cid : string) :
  test_consume_stream_batch_headers queue cid = [Some true].
Proof. apply (check_published cid (Text "")). Qed.

(** **** Decoding *)









(** The tests of the engine's own path through batches and streams hold of
    the model too. *)
Lemma engine_batch_and_stream_tests_pass (queue cid : string) :
  test_consume_list_batch_with_one queue cid = [Batch [Scalar (Text "hi")]] ∧
  test_consume_list_batch queue cid = [Batch [Scalar (Int 1); Scalar (Text "hi")]] ∧
  test_consume_stream queue cid = [Single (Text "hello")] ∧
  test_consume_stream_batch queue cid = [Batch [Scalar (Text "hello")]].
Proof. repeat split; reflexivity. Qed.

End RedisFacts.

(** *** Concrete runs *)

Section RedisRuns.

Import Redis.

Local Open Scope list_scope.




Lemma batch_alignment_witness :
  Forall (λ e,
            length (batch_headers e) = body_length (body e) ∧
            (∃ c, headers e !! "correlation_id" = Some c ∧
                  Forall (λ bh, bh !! "correlation_id" = Some c) (batch_headers e)) ∧
            (∀ k v,
               default (∅ : gmap string string) (Some {["custom" := "1"]}) !! k = Some v →
               headers e !! k = Some v))
         (consume list_q_pairs three_arrivals).
Proof.
  apply (batch_alignment list_q_pairs (Some {["custom" := "1"]}) "c"
           [Text "a"; Bytes [x01]; Text "b"] three_arrivals).
  - left. reflexivity.
  - reflexivity.
  - repeat constructor.
Defined.

End RedisRuns.

(* ===================================================================== *)
(** ** Part IV.  Further properties of the Kafka router                  *)
(* ===================================================================== *)

Section RouterLaws.

Import Kafka.

Context {Any : Type}.

Implicit Types (s : State Any) (c : Call Any) (cs : list (Call Any)) (l : loc).

Lemma string_app_assoc (a b c : string) : (a ++ b) ++ c = a ++ b ++ c.
Proof.
  induction a as [| x a IH]; [reflexivity |].
  change (String x ((a ++ b) ++ c) = String x (a ++ b ++ c)). by rewrite IH.
Qed.

Lemma update_publisher_prefix_eq s l (p : Publisher Any) (pre : string) :
  heap s !! l = Some p →
  _update_publisher_prefix pre l s =
  Some (l, mkState (<[l := set_topic (pre ++ topic p) p]> (heap s)) (self s)).
Proof.
  intros Hp. unfold _update_publisher_prefix, bind, load, store, ret.
  rewrite Hp. cbn. by rewrite Hp.
Qed.

(** X1 (prefixing composes).  On a live object, [_update_publisher_prefix]
    returns the reference it was given and changes the [topic] of that object
    only; applying it with [p1] and then with [p2] is applying it once with
    [p2 ++ p1], so a second application adds the prefix a second time; with
    the empty prefix it changes nothing. *)
Theorem update_publisher_prefix_compose s l (p : Publisher Any) (p1 p2 : string) :
  heap s !! l = Some p →
  _update_publisher_prefix p1 l s
    = Some (l, mkState (<[l := set_topic (p1 ++ topic p) p]> (heap s)) (self s)) ∧
  bind (_update_publisher_prefix p1 l) (_update_publisher_prefix p2) s
    = _update_publisher_prefix (p2 ++ p1) l s ∧
  _update_publisher_prefix "" l s = Some (l, s).
Proof.
  intros Hp. split; [by apply update_publisher_prefix_eq |]. split.
  - unfold bind at 1. rewrite (update_publisher_prefix_eq _ _ _ _ Hp).
    erewrite update_publisher_prefix_eq by (cbn; apply lookup_insert_eq).
    rewrite (update_publisher_prefix_eq _ _ _ _ Hp). cbn.
    by rewrite insert_insert_eq, string_app_assoc.
  - rewrite (update_publisher_prefix_eq _ _ _ _ Hp). cbn.
    destruct p; cbn. rewrite insert_id by exact Hp. by destruct s.
Qed.

(** **** One call, seen through the registry *)

Lemma publisher_total s c : ∃ l s', publisher c s = Some (l, s').
Proof. rewrite publisher_eq. by eexists _, _. Qed.

Lemma publisher_registry_mono s c l s' k l0 :
  publisher c s = Some (l, s') →
  _publishers (self s) !! k = Some l0 → _publishers (self s') !! k = Some l0.
Proof.
  rewrite publisher_eq. cbn. intros [= <- <-] Hk. cbn.
  destruct (decide (resolved_key s c = k)) as [-> | Hne].
  - rewrite lookup_insert_eq, Hk. reflexivity.
  - by rewrite lookup_insert_ne.
Qed.

Lemma publisher_result_registered s c l s' :
  publisher c s = Some (l, s') → _publishers (self s') !! resolved_key s c = Some l.
Proof. rewrite publisher_eq. cbn. intros [= <- <-]. cbn. apply lookup_insert_eq. Qed.

(** The candidate of a call depends on the router's prefix and
    [include_in_schema] only. *)
Lemma candidate_kept s s' c :
  prefix (self s') = prefix (self s) →
  router_include_in_schema (self s') = router_include_in_schema (self s) →
  candidate s' c = candidate s c.
Proof. intros Hp Hi. unfold candidate. by rewrite Hp, Hi. Qed.

Lemma view_lookup s k :
  view s !! k = _publishers (self s) !! k ≫= λ l, heap s !! l.
Proof. unfold view. apply lookup_omap. Qed.

(** [publisher] is insertion-if-absent on the registry's view. *)
Lemma view_publisher s c l s' :
  registry_consistent s → publisher c s = Some (l, s') →
  view s' = <[resolved_key s c :=
               default (candidate s c) (view s !! resolved_key s c)]> (view s).
Proof.
  intros Hs Hcall. apply map_eq. intros k. rewrite !view_lookup.
  rewrite publisher_eq in Hcall. cbn in Hcall. injection Hcall as <- <-. cbn.
  destruct (decide (resolved_key s c = k)) as [<- | Hne].
  - rewrite !lookup_insert_eq. rewrite ?view_lookup.
    destruct (_publishers (self s) !! resolved_key s c) as [l2 |] eqn:E; cbn.
    + destruct (Hs _ _ E) as (p & Hp & _).
      rewrite lookup_insert_ne by (symmetry; eapply allocated_not_fresh, Hp).
      by rewrite Hp.
    + by rewrite lookup_insert_eq.
  - rewrite !lookup_insert_ne by done. rewrite ?view_lookup.
    destruct (_publishers (self s) !! k) as [l2 |] eqn:E; cbn; [| done].
    destruct (Hs _ _ E) as (p & Hp & _).
    by rewrite lookup_insert_ne by (symmetry; eapply allocated_not_fresh, Hp).
Qed.

Lemma view_result s c l s' :
  publisher c s = Some (l, s') → heap s' !! l = view s' !! resolved_key s c.
Proof.
  intros Hcall. rewrite view_lookup.
  by rewrite (publisher_result_registered _ _ _ _ Hcall).
Qed.

(** **** Sequences of calls *)

Lemma publisher_calls_cons c cs s :
  publisher_calls (c :: cs) s =
  match publisher c s with
  | Some (l, s1) =>
      match publisher_calls cs s1 with
      | Some (ls, s') => Some (l :: ls, s')
      | None => None
      end
  | None => None
  end.
Proof.
  cbn [publisher_calls]. unfold bind at 1.
  destruct (publisher c s) as [[l s1] |]; [| reflexivity].
  unfold bind at 1. by destruct (publisher_calls cs s1) as [[ls s'] |].
Qed.

Lemma publisher_calls_total cs : ∀ s, ∃ ls s',
  publisher_calls cs s = Some (ls, s') ∧ length ls = length cs.
Proof.
  induction cs as [| c cs IH]; intros s; [by exists [], s |].
  destruct (publisher_total s c) as (l & s1 & Hcall).
  destruct (IH s1) as (ls & s' & Hrun & Hlen).
  exists (l :: ls), s'. rewrite publisher_calls_cons, Hcall, Hrun. cbn. by rewrite Hlen.
Qed.

(** What a sequence of calls keeps: the router's attributes, every registry
    entry, every object; and each result stays the entry of its call's key. *)
Lemma publisher_calls_registered cs : ∀ s ls s',
  publisher_calls cs s = Some (ls, s') →
  prefix (self s') = prefix (self s) ∧
  router_include_in_schema (self s') = router_include_in_schema (self s) ∧
  (∀ k l, _publishers (self s) !! k = Some l → _publishers (self s') !! k = Some l) ∧
  (∀ l (p : Publisher Any), heap s !! l = Some p → heap s' !! l = Some p) ∧
  (∀ i c l, cs !! i = Some c → ls !! i = Some l →
            _publishers (self s') !! resolved_key s c = Some l).
Proof.
  induction cs as [| c cs IH]; intros s ls s' Hrun.
  - cbn in Hrun. injection Hrun as <- <-. repeat split; try done.
  - rewrite publisher_calls_cons in Hrun.
    destruct (publisher c s) as [[l1 s1] |] eqn:Hcall; [| discriminate].
    destruct (publisher_calls cs s1) as [[ls1 s2] |] eqn:Hrest; [| discriminate].
    injection Hrun as <- <-.
    destruct (publisher_prefix_kept _ _ _ _ Hcall) as [Hp1 Hi1].
    destruct (IH _ _ _ Hrest) as (Hp & Hi & Hreg & Hheap & Hres).
    split; [congruence |]. split; [congruence |].
    split; [intros k l Hk; eapply Hreg, publisher_registry_mono; eauto |].
    split; [intros l p Hl; eapply Hheap, publisher_heap_frame; eauto |].
    intros [| i] c' l Hc Hl; cbn in Hc, Hl.
    + injection Hc as <-. injection Hl as <-.
      by eapply Hreg, publisher_result_registered.
    + pose proof (Hres i c' l Hc Hl) as H. unfold resolved_key in *.
      by rewrite Hp1 in H.
Qed.

(** X2 (the result aliases the registry entry).  The reference [publisher()]
    returns is the one the registry holds: prefixing the object through it
    with [q] leaves the key where it was, so the next call on the same topic
    still returns that reference, now to an object whose topic is [q] followed
    by the key; for a non-empty [q] the registry's keys no longer agree with
    the topics of the objects stored under them. *)
Theorem returned_reference_aliases_registry s c (q : string) :
  registry_consistent s →
  ∃ l s1 s2 s3 p,
    publisher c s = Some (l, s1) ∧
    heap s1 !! l = Some p ∧
    topic p = resolved_key s c ∧
    _update_publisher_prefix q l s1 = Some (l, s2) ∧
    publisher c s2 = Some (l, s3) ∧
    heap s3 !! l = Some (set_topic (q ++ resolved_key s c) p) ∧
    (q ≠ "" → ¬ registry_consistent s2).
Proof.
  intros Hs. destruct (publisher_total s c) as (l & s1 & Hcall).
  pose proof (registry_consistent_publisher _ _ _ _ Hs Hcall) as Hs1.
  pose proof (publisher_result_registered _ _ _ _ Hcall) as Hreg.
  destruct (publisher_prefix_kept _ _ _ _ Hcall) as [Hpre _].
  destruct (Hs1 _ _ Hreg) as (p & Hp & Ht).
  pose proof (update_publisher_prefix_eq s1 l p q Hp) as Hupd.
  set (s2 := mkState (<[l := set_topic (q ++ topic p) p]> (heap s1)) (self s1)) in Hupd.
  assert (Hreg2 : _publishers (self s2) !! resolved_key s2 c = Some l).
  { unfold resolved_key in *. cbn. by rewrite Hpre. }
  pose proof (publisher_present _ _ _ Hreg2) as Hcall2.
  assert (Hl2 : heap s2 !! l = Some (set_topic (q ++ resolved_key s c) p)).
  { cbn. rewrite lookup_insert_eq. by rewrite Ht. }
  eexists l, s1, s2, _, p. split; [exact Hcall |].
  split; [exact Hp |]. split; [exact Ht |]. split; [exact Hupd |].
  split; [exact Hcall2 |].
  split; [eapply publisher_heap_frame; eauto |].
  intros Hq Hs2. destruct (Hs2 (resolved_key s c) l Hreg) as (p' & Hp' & Ht').
  rewrite Hl2 in Hp'. injection Hp' as <-. cbn in Ht'.
  by apply string_app_absorb in Ht'.
Qed.

(** X3 (keys of the registry).  Any sequence of calls on any router succeeds
    with one result per call, and the registry's keys afterwards are its keys
    before together with the prefixed topics of the calls. *)
Theorem publisher_calls_keys cs : ∀ s,
  ∃ ls s',
    publisher_calls cs s = Some (ls, s') ∧
    length ls = length cs ∧
    dom (_publishers (self s')) =
      list_to_set ((λ c, prefix (self s) ++ arg_topic c) <$> cs)
      ∪ dom (_publishers (self s)).
Proof.
  induction cs as [| c cs IH]; intros s.
  - exists [], s. repeat split. cbn. by rewrite (left_id_L ∅ (∪)).
  - destruct (publisher_total s c) as (l & s1 & Hcall).
    destruct (IH s1) as (ls & s' & Hrun & Hlen & Hdom).
    exists (l :: ls), s'. rewrite publisher_calls_cons, Hcall, Hrun.
    split; [reflexivity |]. split; [cbn; by rewrite Hlen |].
    destruct (publisher_prefix_kept _ _ _ _ Hcall) as [Hpre _].
    rewrite Hdom, Hpre. rewrite publisher_eq in Hcall. cbn in Hcall.
    injection Hcall as _ <-. cbn [self _publishers set_publishers].
    rewrite dom_insert_L, fmap_cons, list_to_set_cons. unfold resolved_key.
    rewrite (assoc_L (∪)). f_equal. apply (comm_L (∪)).
Qed.

(** X4 (nothing is rebound or dropped).  Over any sequence of calls the
    registry and the object store only grow: every key keeps the reference it
    had and every object its value; and in the final registry each call's
    result is the entry under that call's key. *)
Theorem publisher_calls_results_stay s cs :
  ∃ ls s',
    publisher_calls cs s = Some (ls, s') ∧
    _publishers (self s) ⊆ _publishers (self s') ∧
    heap s ⊆ heap s' ∧
    (∀ i c l, cs !! i = Some c → ls !! i = Some l →
              _publishers (self s') !! (prefix (self s) ++ arg_topic c) = Some l).
Proof.
  destruct (publisher_calls_total cs s) as (ls & s' & Hrun & _).
  destruct (publisher_calls_registered _ _ _ _ Hrun) as (_ & _ & Hreg & Hheap & Hres).
  exists ls, s'. split; [exact Hrun |].
  split; [by apply map_subseteq_spec |].
  split; [by apply map_subseteq_spec |].
  exact Hres.
Qed.

(** X5 (one object per topic).  On a router whose registry is consistent, two
    calls of a sequence return the same reference exactly when their topic
    arguments are equal. *)
Theorem same_reference_iff_same_topic s cs :
  registry_consistent s →
  ∃ ls s',
    publisher_calls cs s = Some (ls, s') ∧
    ∀ i j ci cj li lj,
      cs !! i = Some ci → cs !! j = Some cj →
      ls !! i = Some li → ls !! j = Some lj →
      (li = lj ↔ arg_topic ci = arg_topic cj).
Proof.
  intros Hs. destruct (publisher_calls_total cs s) as (ls & s' & Hrun & _).
  pose proof (registry_consistent_publisher_calls _ _ _ _ Hs Hrun) as Hs'.
  destruct (publisher_calls_registered _ _ _ _ Hrun) as (_ & _ & _ & _ & Hres).
  exists ls, s'. split; [exact Hrun |].
  intros i j ci cj li lj Hci Hcj Hli Hlj.
  pose proof (Hres _ _ _ Hci Hli) as Hi. pose proof (Hres _ _ _ Hcj Hlj) as Hj.
  split.
  - intros <-. destruct (Hs' _ _ Hi) as (p & Hp & Ht).
    destruct (Hs' _ _ Hj) as (p' & Hp' & Ht'). rewrite Hp in Hp'.
    injection Hp' as <-. unfold resolved_key in *. rewrite Ht in Ht'.
    by apply (inj (String.app _)) in Ht'.
  - intros Ht. unfold resolved_key in *. rewrite Ht, Hj in Hi. by injection Hi.
Qed.

(** X6 (insertion if absent).  Seen through its references, the registry
    after a call is the registry before with the call's candidate put under
    the resolved key unless a [Publisher] is there already, in which case that
    one stays; the call returns a reference to the [Publisher] under that
    key. *)
Theorem publisher_is_setdefault s c :
  registry_consistent s →
  ∃ l s',
    publisher c s = Some (l, s') ∧
    view s' = <[resolved_key s c :=
                 default (candidate s c) (view s !! resolved_key s c)]> (view s) ∧
    heap s' !! l = view s' !! resolved_key s c.
Proof.
  intros Hs. destruct (publisher_total s c) as (l & s' & Hcall).
  exists l, s'. split; [exact Hcall |].
  split; [exact (view_publisher _ _ _ _ Hs Hcall) | exact (view_result _ _ _ _ Hcall)].
Qed.

(** X7 (order of distinct topics).  Two calls on different topics may be made
    in either order: the registry holds the same [Publisher] values under the
    same keys afterwards. *)
Theorem publisher_order_irrelevant s c1 c2 :
  registry_consistent s →
  arg_topic c1 ≠ arg_topic c2 →
  ∃ la sa lb sb,
    publisher_calls [c1; c2] s = Some (la, sa) ∧
    publisher_calls [c2; c1] s = Some (lb, sb) ∧
    view sa = view sb.
Proof.
  intros Hs Hne.
  assert (Hk : resolved_key s c1 ≠ resolved_key s c2).
  { unfold resolved_key. intros H. by apply (inj (String.app _)) in H. }
  assert (Hstep : ∀ ca cb, resolved_key s ca ≠ resolved_key s cb →
            ∃ ls s', publisher_calls [ca; cb] s = Some (ls, s') ∧
              view s' = <[resolved_key s cb :=
                           default (candidate s cb) (view s !! resolved_key s cb)]>
                          (<[resolved_key s ca :=
                              default (candidate s ca) (view s !! resolved_key s ca)]>
                             (view s))).
  { intros ca cb Hab.
    destruct (publisher_total s ca) as (l1 & s1 & H1).
    destruct (publisher_total s1 cb) as (l2 & s2 & H2).
    exists [l1; l2], s2. rewrite publisher_calls_cons, H1.
    rewrite publisher_calls_cons, H2. cbn.
    split; [reflexivity |].
    pose proof (registry_consistent_publisher _ _ _ _ Hs H1) as Hs1.
    destruct (publisher_prefix_kept _ _ _ _ H1) as [Hp Hi].
    rewrite (view_publisher _ _ _ _ Hs1 H2), (view_publisher _ _ _ _ Hs H1).
    rewrite (candidate_kept s s1 cb Hp Hi).
    replace (resolved_key s1 cb) with (resolved_key s cb)
      by (unfold resolved_key; by rewrite Hp).
    by rewrite lookup_insert_ne by done. }
  destruct (Hstep c1 c2 Hk) as (la & sa & Ha & Hva).
  destruct (Hstep c2 c1 (not_eq_sym Hk)) as (lb & sb & Hb & Hvb).
  exists la, sa, lb, sb. split; [exact Ha |]. split; [exact Hb |].
  rewrite Hva, Hvb. by apply insert_insert_ne.
Qed.

(** The registry's view after a sequence of calls: what was registered stays,
    and a new key holds the candidate of the first call that resolved to it. *)
Lemma view_publisher_calls cs : ∀ s ls s',
  registry_consistent s →
  publisher_calls cs s = Some (ls, s') →
  ∀ k, view s' !! k =
       match view s !! k with
       | Some p => Some p
       | None => candidate s <$> first_call (prefix (self s)) k cs
       end.
Proof.
  induction cs as [| c cs IH]; intros s ls s' Hs Hrun k.
  - cbn in Hrun. injection Hrun as _ <-. by destruct (view s !! k).
  - rewrite publisher_calls_cons in Hrun.
    destruct (publisher c s) as [[l1 s1] |] eqn:Hcall; [| discriminate].
    destruct (publisher_calls cs s1) as [[ls1 s2] |] eqn:Hrest; [| discriminate].
    injection Hrun as _ <-.
    pose proof (registry_consistent_publisher _ _ _ _ Hs Hcall) as Hs1.
    destruct (publisher_prefix_kept _ _ _ _ Hcall) as [Hp Hi].
    rewrite (IH _ _ _ Hs1 Hrest k), (view_publisher _ _ _ _ Hs Hcall), Hp.
    unfold first_call, resolved_key.
    destruct (decide (prefix (self s) ++ arg_topic c = k)) as [<- | Hne].
    + rewrite lookup_insert_eq, filter_cons_True by done. cbn.
      by destruct (view s !! (prefix (self s) ++ arg_topic c)).
    + rewrite lookup_insert_ne, filter_cons_False by done.
      destruct (view s !! k); [done |].
      destruct (head _) as [c' |]; [| done]. cbn.
      by rewrite (candidate_kept s s1 c' Hp Hi).
Qed.

(** X8 (the first call wins).  After any sequence of calls on a router whose
    registry is consistent, a key that was registered before holds the
    [Publisher] it held, and any other key holds the candidate of the first
    call of the sequence that resolved to it, with every argument of that
    call, or nothing when no call did. *)
Theorem first_call_wins s cs :
  registry_consistent s →
  ∃ ls s',
    publisher_calls cs s = Some (ls, s') ∧
    ∀ k, view s' !! k =
         match view s !! k with
         | Some p => Some p
         | None => candidate s <$> first_call (prefix (self s)) k cs
         end.
Proof.
  intros Hs. destruct (publisher_calls_total cs s) as (ls & s' & Hrun & _).
  exists ls, s'. split; [exact Hrun |]. by eapply view_publisher_calls.
Qed.

(** X9 (a router-wide [include_in_schema]).  On a router constructed with
    [include_in_schema] set to [b], every [Publisher] in the registry after
    any sequence of calls has [include_in_schema] [b], whatever the calls
    passed, and its topic is the key it is stored under. *)
Theorem router_include_in_schema_everywhere (pre : string) (b : bool) cs :
  ∃ ls s',
    publisher_calls cs (init (Any := Any) pre (Some b)) = Some (ls, s') ∧
    ∀ k p, view s' !! k = Some p → include_in_schema p = b ∧ topic p = k.
Proof.
  pose proof (registry_consistent_init (Any := Any) pre (Some b)) as Hs.
  destruct (publisher_calls_total cs (init pre (Some b))) as (ls & s' & Hrun & _).
  exists ls, s'. split; [exact Hrun |]. intros k p Hk.
  rewrite (view_publisher_calls _ _ _ _ Hs Hrun k) in Hk.
  rewrite view_lookup in Hk. cbn in Hk. rewrite lookup_empty in Hk. cbn in Hk.
  unfold first_call in Hk.
  destruct (head _) as [c |] eqn:Hhead; [| discriminate].
  cbn in Hk. injection Hk as <-. split; [reflexivity |].
  apply head_Some_elem_of, list_elem_of_filter in Hhead as [Hc _]. exact Hc.
Qed.

End RouterLaws.

(** *** Concrete runs *)

Section RouterLawsRuns.

Import Kafka.

Lemma update_publisher_prefix_compose_witness :
  _update_publisher_prefix "x_" 1%positive router_with_a
    = Some (1%positive,
            mkState (<[1%positive :=
                        set_topic ("x_" ++ topic (candidate router_pre call_a))
                                  (candidate router_pre call_a)]>
                       (heap router_with_a))
                    (self router_with_a)) ∧
  bind (_update_publisher_prefix "x_" 1%positive) (_update_publisher_prefix "y_")
       router_with_a
    = _update_publisher_prefix ("y_" ++ "x_") 1%positive router_with_a ∧
  _update_publisher_prefix "" 1%positive router_with_a
    = Some (1%positive, router_with_a).
Proof.
  apply (update_publisher_prefix_compose router_with_a 1%positive
           (candidate router_pre call_a) "x_" "y_").
  apply lookup_singleton_eq.
Defined.

Lemma returned_reference_aliases_registry_witness :
  ∃ l s1 s2 s3 p,
    publisher call_a router_pre = Some (l, s1) ∧
    heap s1 !! l = Some p ∧
    topic p = "pre_a" ∧
    _update_publisher_prefix "x_" l s1 = Some (l, s2) ∧
    publisher call_a s2 = Some (l, s3) ∧
    heap s3 !! l = Some (set_topic "x_pre_a" p) ∧
    ("x_" ≠ "" → ¬ registry_consistent s2).
Proof.
  apply (returned_reference_aliases_registry router_pre call_a "x_").
  apply registry_consistent_init.
Defined.

Lemma same_reference_iff_same_topic_witness :
  ∃ ls s',
    publisher_calls [call_a; call_b; call_a_again] router_pre = Some (ls, s') ∧
    ∀ i j ci cj li lj,
      [call_a; call_b; call_a_again] !! i = Some ci →
      [call_a; call_b; call_a_again] !! j = Some cj →
      ls !! i = Some li → ls !! j = Some lj →
      (li = lj ↔ arg_topic ci = arg_topic cj).
Proof.
  apply (same_reference_iff_same_topic router_pre [call_a; call_b; call_a_again]).
  apply registry_consistent_init.
Defined.

Lemma publisher_is_setdefault_witness :
  ∃ l s',
    publisher call_a_again router_with_a = Some (l, s') ∧
    view s' = <["pre_a" := default (candidate router_with_a call_a_again)
                                   (view router_with_a !! "pre_a")]>
                (view router_with_a) ∧
    heap s' !! l = view s' !! "pre_a".
Proof.
  apply (publisher_is_setdefault router_with_a call_a_again).
  apply registry_consistent_router_with_a.
Defined.

Lemma publisher_order_irrelevant_witness :
  ∃ la sa lb sb,
    publisher_calls [call_a_batch; call_b] router_with_a = Some (la, sa) ∧
    publisher_calls [call_b; call_a_batch] router_with_a = Some (lb, sb) ∧
    view sa = view sb.
Proof.
  apply (publisher_order_irrelevant router_with_a call_a_batch call_b).
  - apply registry_consistent_router_with_a.
  - discriminate.
Defined.

Lemma first_call_wins_witness :
  ∃ ls s',
    publisher_calls [call_b; call_a_batch; call_b; call_a_b_a] router_with_a
      = Some (ls, s') ∧
    ∀ k, view s' !! k =
         match view router_with_a !! k with
         | Some p => Some p
         | None =>
             candidate router_with_a
               <$> first_call "pre_" k [call_b; call_a_batch; call_b; call_a_b_a]
         end.
Proof.
  apply (first_call_wins router_with_a [call_b; call_a_batch; call_b; call_a_b_a]).
  apply registry_consistent_router_with_a.
Defined.

End RouterLawsRuns.
